(** * gsync: the sender side of the delta synchronisation (rsync_client.go)

    A shallow embedding of [Sync] and of the interfaces it is written
    against (io.Reader, hash.Hash, context.Context, Go channels), followed
    by the properties of the operation stream it produces. *)

From Stdlib Require Import ZArith List String Strings.Byte Sorted Lia.
From stdpp Require Import gmap list.
Import ListNotations.
Local Open Scope Z_scope.

(** ** Errors *)

(** Go [error] values.  [None : option error] is the nil error. *)
Inductive error : Type :=
| EOF                                     (* io.EOF *)
| Canceled                                (* context.Canceled *)
| DeadlineExceeded                        (* context.DeadlineExceeded *)
| ErrIO (msg : string)                    (* any other error a reader reports *)
| Wrapped (cause : error) (msg : string). (* built by errors.Wrapf *)

(** [err == io.EOF] *)
Definition is_EOF (err : option error) : bool :=
  match err with
  | Some EOF => true
  | _ => false
  end.

(** errors.Wrapf of github.com/pkg/errors: nil stays nil. *)
Definition Wrapf (err : option error) (format : string) : option error :=
  match err with
  | None => None
  | Some e => Some (Wrapped e format)
  end.

(** ** Bytes *)

(** [bytes.Compare]: lexicographic, with result -1, 0 or 1. *)
Fixpoint Compare (a b : list byte) : Z :=
  match a, b with
  | [], [] => 0
  | [], _ :: _ => -1
  | _ :: _, [] => 1
  | x :: a', y :: b' =>
      match N.compare (Byte.to_N x) (Byte.to_N y) with
      | Eq => Compare a' b'
      | Lt => -1
      | Gt => 1
      end
  end.

(** The header of a byte slice made by [make([]byte, len, cap)]. *)
Record SliceHdr : Type := make_bytes { s_len : nat; s_cap : nat }.

(** ** The interfaces Sync is written against *)

(** io.Reader.  [Read r n] is [r.Read(p)] with [len(p) = n]: it gives the
    bytes stored in [p[:k]] (so [k] is their number), the error, and the
    reader afterwards. *)
Class Reader (R : Type) := Read : R -> nat -> list byte * option error * R.

(** The part of io.Reader's contract the scanner relies on: at most
    [len(p)] bytes are read. *)
Definition ReaderOk (R : Type) {reader_R : Reader R} : Prop :=
  forall (r : R) (n : nat), (length (Read r n).1.1 <= n)%nat.

(** hash.Hash.  [Sum h b] is [h.Sum(b)]; it leaves [h] as it is. *)
Class Hash (H : Type) := {
  Write : H -> list byte -> H;
  Sum : H -> list byte -> list byte;
  Reset : H -> H
}.

(** hash.Hash's documented behaviour: Sum appends the current hash to its
    argument and returns the resulting slice. *)
Class HashLaws (H : Type) {hash_H : Hash H} : Prop := {
  Sum_append : forall (h : H) (b : list byte), Sum h b = b ++ Sum h []
}.

(** context.Context, as the scanner sees it: [ctx i] is what the select
    of loop iteration [i] observes, [Some e] when [ctx.Done()] is closed
    and [ctx.Err()] is [e], [None] while the context is live. *)
Definition Context : Type := nat -> option error.

(** ** Data model *)

Record BlockChecksum : Type := {
  bc_Index : Z;              (* uint64 *)
  bc_Weak : Z;               (* uint32 *)
  bc_Strong : list byte;
  bc_Error : option error
}.

(** [op_Data = None] is the nil slice. *)
Record BlockOperation : Type := {
  op_Index : Z;              (* uint64 *)
  op_IndexB : Z;             (* uint64 *)
  op_Data : option (list byte);
  op_Error : option error
}.

Definition set_IndexB (op : BlockOperation) (i : Z) : BlockOperation :=
  {| op_Index := op_Index op; op_IndexB := i;
     op_Data := op_Data op; op_Error := op_Error op |}.

Definition set_Data (op : BlockOperation) (d : list byte) : BlockOperation :=
  {| op_Index := op_Index op; op_IndexB := op_IndexB op;
     op_Data := Some d; op_Error := op_Error op |}.

(** ** Channels *)

Inductive ChanDir : Type :=
| Bidi       (* chan T *)
| SendOnly   (* chan<- T *)
| RecvOnly.  (* <-chan T *)

Record Chan : Type := make_chan { ch_dir : ChanDir; ch_cap : nat }.

(** The receive operator [<-ch] type-checks on [chan T] and [<-chan T]
    only. *)
Definition can_recv (ch : Chan) : bool :=
  match ch_dir ch with
  | SendOnly => false
  | _ => true
  end.

(** What the goroutine does to its output channel, in program order. *)
Inductive Action : Type :=
| ASend (op : BlockOperation)   (* o <- op *)
| AClose.                       (* close(o) *)

Definition sends (acts : list Action) : list BlockOperation :=
  flat_map (fun a => match a with ASend op => [op] | AClose => [] end) acts.

(** ** The lookup table *)

(** [t[k] = append(t[k], sum)] with [k := sum.Weak].  An entry with an
    Error is only logged and is indexed like any other. *)
Definition table_add (t : gmap Z (list BlockChecksum)) (sum : BlockChecksum)
  : gmap Z (list BlockChecksum) :=
  let k := bc_Weak sum in
  <[k := default [] (t !! k) ++ [sum]]> t.

(** The loop over the checksum channel; [c] is what it delivers until it
    is closed. *)
Definition build_table (c : list BlockChecksum) : gmap Z (list BlockChecksum) :=
  fold_left table_add c ∅.

(** ** The scanner *)

Definition uint64_max1 : Z := 2 ^ 64.

(** [index++] on a uint64. *)
Definition incr64 (i : Z) : Z := (i + 1) mod uint64_max1.

Inductive Exit : Type :=
| Completed   (* break on io.EOF *)
| Cancelled   (* return after ctx.Done() *)
| Failed.     (* return after a read error *)

Section Scanner.

(** Declared elsewhere in the package. *)
Variable DefaultBlockSize : nat.
Variable rollingHash : list byte -> Z.

Context {R : Type} {reader_R : Reader R}.
Context {H : Type} {hash_H : Hash H}.

(** [buffer := make([]byte, 0, DefaultBlockSize)] *)
Definition buffer : SliceHdr := make_bytes 0 DefaultBlockSize.

(** [bytes.Compare(shash.Sum(block), b.Strong) == 0] *)
Definition strong_match (shash : H) (block : list byte) (b : BlockChecksum) : bool :=
  Z.eqb (Compare (Sum shash block) (bc_Strong b)) 0.

(** [for _, b := range bs { if ... { op.IndexB = b.Index } }] *)
Definition scan_bucket (shash : H) (block : list byte)
           (bs : list BlockChecksum) (op : BlockOperation) : BlockOperation :=
  fold_left
    (fun op b => if strong_match shash block b then set_IndexB op (bc_Index b) else op)
    bs op.

(** From [weak := rollingHash(block)] to the value sent as [op]. *)
Definition make_op (t : gmap Z (list BlockChecksum)) (shash : H)
           (index : Z) (block : list byte) : BlockOperation :=
  let weak := rollingHash block in
  let op := {| op_Index := index; op_IndexB := 0; op_Data := None; op_Error := None |} in
  match t !! weak with
  | Some bs => scan_bucket shash block bs op
  | None => set_Data op block
  end.

(** [BlockOperation{Error: e}] *)
Definition error_op (e : option error) : BlockOperation :=
  {| op_Index := 0; op_IndexB := 0; op_Data := None; op_Error := e |}.

(** The variables of the goroutine: [index], the reader, and the number
    of loop iterations done (which select of [ctx] comes next). *)
Record Scan : Type := { sc_index : Z; sc_reader : R; sc_iter : nat }.

Inductive Status : Type :=
| Running (s : Scan)
| Stopped (e : Exit) (s : Scan).

Variable ctx : Context.
Variable t : gmap Z (list BlockChecksum).
Variable shash : H.

(** One pass through the body of the [for]; [close(o)] is deferred, so
    it is the last action of every way out. *)
Definition iteration (s : Scan) : list Action * Status :=
  match ctx (sc_iter s) with
  | Some e => ([ASend (error_op (Some e)); AClose], Stopped Cancelled s)
  | None =>
      let '(block, err, r') := Read (sc_reader s) (s_len buffer) in
      let s' := {| sc_index := sc_index s; sc_reader := r'; sc_iter := sc_iter s |} in
      if is_EOF err then ([AClose], Stopped Completed s')
      else
        match err with
        | Some _ =>
            ([ASend (error_op (Wrapf err "failed reading file")); AClose],
             Stopped Failed s')
        | None =>
            ([ASend (make_op t shash (sc_index s) block)],
             Running {| sc_index := incr64 (sc_index s);
                        sc_reader := r';
                        sc_iter := S (sc_iter s) |})
        end
  end.

(** The four ways through the body, read off the code above. *)
Inductive iteration_case (s : Scan) : list Action * Status -> Prop :=
| it_cancelled e :
    ctx (sc_iter s) = Some e ->
    iteration_case s ([ASend (error_op (Some e)); AClose], Stopped Cancelled s)
| it_eof block r' :
    ctx (sc_iter s) = None ->
    Read (sc_reader s) (s_len buffer) = (block, Some EOF, r') ->
    iteration_case s
      ([AClose],
       Stopped Completed {| sc_index := sc_index s; sc_reader := r'; sc_iter := sc_iter s |})
| it_failed block e r' :
    ctx (sc_iter s) = None ->
    Read (sc_reader s) (s_len buffer) = (block, Some e, r') ->
    e <> EOF ->
    iteration_case s
      ([ASend (error_op (Some (Wrapped e "failed reading file"))); AClose],
       Stopped Failed {| sc_index := sc_index s; sc_reader := r'; sc_iter := sc_iter s |})
| it_chunk block r' :
    ctx (sc_iter s) = None ->
    Read (sc_reader s) (s_len buffer) = (block, None, r') ->
    iteration_case s
      ([ASend (make_op t shash (sc_index s) block)],
       Running {| sc_index := incr64 (sc_index s); sc_reader := r';
                  sc_iter := S (sc_iter s) |}).

(** The goroutine, run for at most [fuel] iterations. *)
Fixpoint scan (fuel : nat) (s : Scan) : list Action * Status :=
  match fuel with
  | O => ([], Running s)
  | S fuel' =>
      match iteration s with
      | (a, Running s') => let (b, st) := scan fuel' s' in (a ++ b, st)
      | (a, Stopped e s') => (a, Stopped e s')
      end
  end.

End Scanner.

Arguments Running {R} s.
Arguments Stopped {R} e s.

(** ** Sync *)

(** What [Sync] hands back: the channel it returns, and the goroutine it
    starts, given as the actions of its first [fuel] iterations. *)
Record SyncResult (R : Type) : Type := {
  sr_chan : Chan;
  sr_run : nat -> list Action * Status (R := R)
}.
Arguments sr_chan {R} _.
Arguments sr_run {R} _ _.

Definition Sync (DefaultBlockSize : nat) (rollingHash : list byte -> Z)
           {R : Type} {reader_R : Reader R} {H : Type} {hash_H : Hash H}
           (ctx : Context) (r : R) (shash : H) (c : list BlockChecksum)
  : SyncResult R :=
  let t := build_table c in
  let index := 0 in
  let o := make_chan SendOnly 0 in   (* make(chan<- BlockOperation) *)
  {| sr_chan := o;
     sr_run := fun fuel =>
       scan DefaultBlockSize rollingHash ctx t shash fuel
            {| sc_index := index; sc_reader := r; sc_iter := 0 |} |}.

(** ** Delivery on the channel *)

(** The prefix of the goroutine's actions that can complete on [ch].
    [Sync] makes the channel with the type it returns it at, so that type
    is the only one anybody holds it at: a send completes when the value
    can be received ([can_recv]) or fits in the buffer ([room] free
    slots), and blocks for good otherwise. *)
Fixpoint completed (ch : Chan) (room : nat) (acts : list Action) : list Action :=
  match acts with
  | [] => []
  | ASend op :: rest =>
      if can_recv ch then ASend op :: completed ch room rest
      else match room with
           | S room' => ASend op :: completed ch room' rest
           | O => []
           end
  | AClose :: _ => [AClose]
  end.

(** What a caller gets out of [ch] by receiving. *)
Definition received (ch : Chan) (acts : list Action) : list BlockOperation :=
  if can_recv ch then sends (completed ch (ch_cap ch) acts) else [].

(** ** Concrete readers, hashes and checksums to run the scanner on *)

(** bytes.Reader of the Go library: EOF once nothing is left, else a copy
    of as much as fits. *)
Record BytesReader : Type := NewReader { unread : list byte }.

#[export] Instance BytesReader_Reader : Reader BytesReader :=
  fun r n =>
    match unread r with
    | [] => ([], Some EOF, r)
    | s => (take n s, None, NewReader (drop n s))
    end.

(** A reader that plays a script: each Read gives the next scripted data
    (as much of it as fits) and error, and EOF once the script is over. *)
Record ScriptReader : Type := Script { script : list (list byte * option error) }.

#[export] Instance ScriptReader_Reader : Reader ScriptReader :=
  fun r n =>
    match script r with
    | [] => ([], Some EOF, r)
    | (d, e) :: rest => (take n d, e, Script rest)
    end.

Definition byte_of_Z (z : Z) : byte :=
  default x00 (Byte.of_N (Z.to_N (z mod 256))).

Definition Z_of_byte (b : byte) : Z := Z.of_N (Byte.to_N b).

(** hash/fnv's 32-bit FNV-1a, a hash.Hash of the Go library. *)
Record fnv32a : Type := { fnv_state : Z }.

Definition offset32 : Z := 2166136261.
Definition prime32 : Z := 16777619.

Definition New32a : fnv32a := {| fnv_state := offset32 |}.

Definition fnv32a_Write (s : fnv32a) (p : list byte) : fnv32a :=
  {| fnv_state :=
       fold_left (fun h c => (Z.lxor h (Z_of_byte c) * prime32) mod 2 ^ 32)
                 p (fnv_state s) |}.

Definition fnv32a_Sum (s : fnv32a) (b : list byte) : list byte :=
  let v := fnv_state s in
  b ++ [byte_of_Z (Z.shiftr v 24); byte_of_Z (Z.shiftr v 16);
        byte_of_Z (Z.shiftr v 8); byte_of_Z v].

#[export] Instance fnv32a_Hash : Hash fnv32a :=
  {| Write := fnv32a_Write; Sum := fnv32a_Sum; Reset := fun _ => New32a |}.

(** A weak checksum in rsync's style, to run the scanner on concrete
    inputs: the package's own [rollingHash] is a parameter of the model. *)
Definition weak_sample (block : list byte) : Z :=
  let a := fold_left (fun a c => (a + Z_of_byte c) mod 2 ^ 16) block 0 in
  let b := fold_left (fun b '(i, c) => (b + Z.of_nat i * Z_of_byte c) mod 2 ^ 16)
                     (combine (rev (seq 1 (length block))) block) 0 in
  a + 2 ^ 16 * b.

(** A context nobody cancels, and one found cancelled from the select of
    iteration [i] on. *)
Definition Background : Context := fun _ => None.


(** ** Notions of the specification *)

(** The strong hash of a chunk: the digest of a hash that was fed the
    chunk's bytes and nothing else. *)
Definition strong_hash {H : Type} {hash_H : Hash H} (shash : H) (chunk : list byte)
  : list byte :=
  Sum (Write (Reset shash) chunk) [].

(** An operation with neither a payload, nor a block reference, nor an
    error. *)
Definition is_empty_op (op : BlockOperation) : Prop :=
  op_Data op = None /\ op_IndexB op = 0 /\ op_Error op = None.

(** What the receiving side writes for one operation: its payload when it
    has one, else the remote block it refers to. *)
Definition apply_op (remote : Z -> list byte) (op : BlockOperation) : list byte :=
  match op_Data op with
  | Some d => d
  | None => remote (op_IndexB op)
  end.

(** The file rebuilt from the operations, in the order of the stream. *)
Definition reconstruct (remote : Z -> list byte) (ops : list BlockOperation)
  : list byte :=
  flat_map (apply_op remote) ops.

(** The operations that carry no error. *)
Definition normal_ops (ops : list BlockOperation) : list BlockOperation :=
  List.filter (fun op => match op_Error op with None => true | Some _ => false end) ops.

Definition error_ops (ops : list BlockOperation) : list BlockOperation :=
  List.filter (fun op => match op_Error op with None => false | Some _ => true end) ops.

(** ** Inputs the properties below are evaluated at *)

(** A one-byte local file. *)
Definition one_byte_file : BytesReader := NewReader [x41].


(** FNV-1a of no bytes at all, 0x811c9dc5. *)
Definition fnv_of_nothing : list byte := [x81; x1c; x9d; xc5].

(** A bucket with a single candidate whose strong hash is not that of the
    empty chunk. *)
Definition colliding_checksums : list BlockChecksum :=
  [ {| bc_Index := 5; bc_Weak := weak_sample [];
       bc_Strong := [x00; x00; x00; x00]; bc_Error := None |} ].

(** Two remote blocks, 5 and 7, with the weak and the strong hash of the
    empty chunk. *)
Definition twin_checksums : list BlockChecksum :=
  [ {| bc_Index := 5; bc_Weak := weak_sample [];
       bc_Strong := fnv_of_nothing; bc_Error := None |};
    {| bc_Index := 7; bc_Weak := weak_sample [];
       bc_Strong := fnv_of_nothing; bc_Error := None |} ].

(** A hash that was used before and not reset. *)
Definition used_hash : fnv32a := Write New32a [x01].

(** Remote block 4 has the strong hash of the empty chunk, remote block 9
    the digest [used_hash] holds. *)
Definition stale_checksums : list BlockChecksum :=
  [ {| bc_Index := 4; bc_Weak := weak_sample [];
       bc_Strong := fnv_of_nothing; bc_Error := None |};
    {| bc_Index := 9; bc_Weak := weak_sample [];
       bc_Strong := Sum used_hash []; bc_Error := None |} ].

(** The first and the last candidate of a bucket that pass the scanner's
    comparison. *)
Definition first_match {H : Type} {hash_H : Hash H}
           (shash : H) (block : list byte) (bs : list BlockChecksum)
  : option BlockChecksum :=
  List.find (strong_match shash block) bs.

Definition last_match {H : Type} {hash_H : Hash H}
           (shash : H) (block : list byte) (bs : list BlockChecksum)
  : option BlockChecksum :=
  List.find (strong_match shash block) (rev bs).

(** The bucket of [w] after the checksums [c] came in: those with weak
    checksum [w], in the order of their arrival. *)
Definition bucket_of (w : Z) (c : list BlockChecksum) : list BlockChecksum :=
  List.filter (fun b => Z.eqb (bc_Weak b) w) c.

(** A checksum with its Error forgotten. *)
Definition without_Error (b : BlockChecksum) : BlockChecksum :=
  {| bc_Index := bc_Index b; bc_Weak := bc_Weak b;
     bc_Strong := bc_Strong b; bc_Error := None |}.

(** A checksum that came with an error, and one for remote block 0 that
    has the strong hash of the empty chunk. *)
Definition broken_checksum : BlockChecksum :=
  {| bc_Index := 3; bc_Weak := weak_sample [];
     bc_Strong := fnv_of_nothing; bc_Error := Some (ErrIO "short read") |}.

Definition block_zero_checksum : BlockChecksum :=
  {| bc_Index := 0; bc_Weak := weak_sample [];
     bc_Strong := fnv_of_nothing; bc_Error := None |}.

(** * Properties *)

(** ** Bytes and hashes *)

Lemma Compare_refl (a : list byte) : Compare a a = 0.
Proof.
  induction a as [|x a IH]; simpl; [reflexivity|].
  rewrite N.compare_refl. exact IH.
Qed.

Lemma to_N_inj (x y : byte) : Byte.to_N x = Byte.to_N y -> x = y.
Proof.
  intros E. pose proof (Byte.of_to_N x) as Hx. pose proof (Byte.of_to_N y) as Hy.
  rewrite E in Hx. congruence.
Qed.

Lemma Compare_eq_0 (a b : list byte) : Compare a b = 0 <-> a = b.
Proof.
  split; [|intros ->; apply Compare_refl].
  revert b. induction a as [|x a IH]; intros [|y b]; simpl; try discriminate; [reflexivity|].
  destruct (N.compare (Byte.to_N x) (Byte.to_N y)) eqn:E; try discriminate.
  intros Hc. apply N.compare_eq in E. apply to_N_inj in E. f_equal; auto.
Qed.

#[export] Instance fnv32a_HashLaws : HashLaws fnv32a.
Proof. constructor. intros h b. reflexivity. Qed.

Lemma BytesReader_ok : ReaderOk BytesReader.
Proof.
  intros r n. unfold Read, BytesReader_Reader.
  destruct (unread r) as [|x s]; simpl; [lia|].
  destruct n; simpl; [lia|]. rewrite length_take. lia.
Qed.

Lemma ScriptReader_ok : ReaderOk ScriptReader.
Proof.
  intros r n. unfold Read, ScriptReader_Reader.
  destruct (script r) as [|[d e] rest]; simpl; [lia|].
  rewrite length_take. lia.
Qed.

(** ** The table *)

Lemma table_add_lookup (t : gmap Z (list BlockChecksum)) (sum : BlockChecksum) (w : Z) :
  table_add t sum !! w =
  if Z.eqb (bc_Weak sum) w then Some (default [] (t !! w) ++ [sum]) else t !! w.
Proof.
  unfold table_add. destruct (Z.eqb_spec (bc_Weak sum) w) as [->|Hne].
  - apply lookup_insert_eq.
  - apply lookup_insert_ne. exact Hne.
Qed.

Lemma fold_table_add_lookup (c : list BlockChecksum) (t : gmap Z (list BlockChecksum)) (w : Z) :
  default [] (fold_left table_add c t !! w) = default [] (t !! w) ++ bucket_of w c
  /\ (fold_left table_add c t !! w = None <-> t !! w = None /\ bucket_of w c = []).
Proof.
  revert t. induction c as [|sum c IH]; intros t; simpl.
  - rewrite app_nil_r. tauto.
  - destruct (IH (table_add t sum)) as [IH1 IH2]. rewrite IH1, IH2.
    rewrite table_add_lookup. destruct (Z.eqb (bc_Weak sum) w); simpl.
    + rewrite <- app_assoc. split; [reflexivity|].
      split; [intros [? _]; discriminate | intros [_ ?]; discriminate].
    + tauto.
Qed.

(** A weak checksum has a bucket exactly when some checksum with it came
    in, and the bucket keeps the order of arrival. *)
Lemma build_table_lookup (c : list BlockChecksum) (w : Z) :
  build_table c !! w =
  match bucket_of w c with
  | [] => None
  | bs => Some bs
  end.
Proof.
  unfold build_table.
  destruct (fold_table_add_lookup c ∅ w) as [H1 H2].
  rewrite lookup_empty in H1, H2. simpl in H1.
  destruct (bucket_of w c) as [|b bs] eqn:E.
  - apply H2. split; reflexivity.
  - destruct (fold_left table_add c ∅ !! w) as [l|] eqn:El.
    + simpl in H1. congruence.
    + destruct (proj1 H2 eq_refl) as [_ ?]; discriminate.
Qed.

(** ** The loop body *)

Section ScannerFacts.

Variable DefaultBlockSize : nat.
Variable rollingHash : list byte -> Z.
Context {R : Type} {reader_R : Reader R}.
Context {H : Type} {hash_H : Hash H}.
Variable ctx : Context.
Variable t : gmap Z (list BlockChecksum).
Variable shash : H.

Local Abbreviation iteration' := (iteration DefaultBlockSize rollingHash ctx t shash).
Local Abbreviation scan' := (scan DefaultBlockSize rollingHash ctx t shash).
Local Abbreviation make_op' := (make_op rollingHash t shash).

Lemma strong_match_spec (block : list byte) (b : BlockChecksum) :
  strong_match shash block b = true <-> Sum shash block = bc_Strong b.
Proof.
  unfold strong_match. rewrite Z.eqb_eq. apply Compare_eq_0.
Qed.

(** The loop over a bucket keeps the index of the last candidate that
    passes the comparison: there is no break. *)
Lemma scan_bucket_last (block : list byte) (bs : list BlockChecksum) (op : BlockOperation) :
  scan_bucket shash block bs op =
  match last_match shash block bs with
  | Some b => set_IndexB op (bc_Index b)
  | None => op
  end.
Proof.
  unfold scan_bucket, last_match.
  induction bs as [|b bs IH] using rev_ind; [reflexivity|].
  rewrite fold_left_app, rev_app_distr. simpl.
  destruct (strong_match shash block b); [|exact IH].
  rewrite IH. destruct (find _ (rev bs)); reflexivity.
Qed.

Lemma last_match_None (block : list byte) (bs : list BlockChecksum) :
  last_match shash block bs = None <->
  Forall (fun b => strong_match shash block b = false) bs.
Proof.
  unfold last_match. rewrite List.Forall_forall. split.
  - intros Hn b Hb. apply (find_none _ _ Hn). apply in_rev in Hb. exact Hb.
  - intros Hall. destruct (find _ (rev bs)) as [b|] eqn:E; [|reflexivity].
    apply find_some in E. destruct E as [Hin Hm].
    apply in_rev in Hin. rewrite (Hall b Hin) in Hm. discriminate.
Qed.

Lemma make_op_Index (index : Z) (block : list byte) :
  op_Index (make_op' index block) = index.
Proof.
  unfold make_op. destruct (t !! rollingHash block); [|reflexivity].
  rewrite scan_bucket_last. destruct (last_match _ _ _); reflexivity.
Qed.

Lemma make_op_Error (index : Z) (block : list byte) :
  op_Error (make_op' index block) = None.
Proof.
  unfold make_op. destruct (t !! rollingHash block); [|reflexivity].
  rewrite scan_bucket_last. destruct (last_match _ _ _); reflexivity.
Qed.

(** ** One iteration *)

Lemma iteration_inv (s : Scan) :
  iteration_case DefaultBlockSize rollingHash ctx t shash s (iteration' s).
Proof.
  unfold iteration.
  destruct (ctx (sc_iter s)) as [e|] eqn:Ec; [by constructor|].
  destruct (Read (sc_reader s) _) as [[block err] r'] eqn:Er.
  destruct err as [e|]; [|by econstructor].
  destruct e; simpl; by econstructor.
Qed.

(** ** Runs *)

Lemma scan_split (i k : nat) (s : Scan) :
  scan' (i + k) s =
  match scan' i s with
  | (a, Running s') => let (b, st) := scan' k s' in (a ++ b, st)
  | (a, Stopped e s') => (a, Stopped e s')
  end.
Proof.
  revert s. induction i as [|i IH]; intros s; simpl.
  - destruct (scan' k s); reflexivity.
  - destruct (iteration' s) as [a [s1|e s1]]; [|reflexivity].
    rewrite IH. destruct (scan' i s1) as [a1 [s2|e s2]]; [|reflexivity].
    destruct (scan' k s2). rewrite app_assoc. reflexivity.
Qed.


(** A run still going after [i] iterations goes on with the next one. *)
Lemma scan_next (i fuel : nat) (s s' : Scan) (acts : list Action) :
  scan' i s = (acts, Running s') ->
  (i < fuel)%nat ->
  scan' fuel s =
  match iteration' s' with
  | (a, Running s1) => let (b, st) := scan' (fuel - S i) s1 in (acts ++ a ++ b, st)
  | (a, Stopped e s1) => (acts ++ a, Stopped e s1)
  end.
Proof.
  intros Hs Hlt. replace fuel with (i + S (fuel - S i))%nat by lia.
  rewrite scan_split, Hs. simpl.
  replace (i + S (fuel - S i) - S i)%nat with (fuel - S i)%nat by lia.
  destruct (iteration' s') as [a [s1|e s1]]; [|reflexivity].
  destruct (scan' (fuel - S i) s1). reflexivity.
Qed.

(** While the scanner runs, iteration [j] has sent one operation, free
    of error, numbered by the counter. *)
Lemma scan_running (fuel : nat) (s s' : Scan) (acts : list Action) :
  scan' fuel s = (acts, Running s') ->
  exists ops,
    acts = map ASend ops /\
    length ops = fuel /\
    Forall (fun op => op_Error op = None) ops /\
    map op_Index ops = map (fun j => Nat.iter j incr64 (sc_index s)) (seq 0 fuel) /\
    sc_index s' = Nat.iter fuel incr64 (sc_index s) /\
    sc_iter s' = (sc_iter s + fuel)%nat.
Proof.
  revert s acts. induction fuel as [|fuel IH]; intros s acts; simpl.
  - intros [= <- <-]. exists []. repeat split; auto.
  - destruct (iteration_inv s) as [e Hc|block r' Hc Hr|block e r' Hc Hr Hne|block r' Hc Hr];
      try discriminate.
    destruct (scan' fuel _) as [b st] eqn:Es. intros [= <- ->].
    destruct (IH _ _ Es) as (ops & -> & Hlen & Hok & Hidx & Hfin & Hit).
    exists (make_op' (sc_index s) block :: ops). simpl in *.
    repeat split.
    + congruence.
    + constructor; [apply make_op_Error | exact Hok].
    + rewrite make_op_Index. f_equal. rewrite Hidx, <- seq_shift, map_map.
      apply map_ext. intros j. simpl. apply Nat.iter_swap.
    + rewrite Hfin. apply Nat.iter_swap.
    + lia.
Qed.

(** A run that stopped did so in one last iteration, after some number
    of iterations that each sent a chunk's operation. *)
Lemma scan_stopped_inv (fuel : nat) (s s' : Scan) (acts : list Action) (e : Exit) :
  scan' fuel s = (acts, Stopped e s') ->
  exists i acts0 s_i tail,
    (i < fuel)%nat /\
    scan' i s = (acts0, Running s_i) /\
    iteration' s_i = (tail, Stopped e s') /\
    acts = acts0 ++ tail.
Proof.
  revert s acts. induction fuel as [|fuel IH]; intros s acts; simpl; [discriminate|].
  destruct (iteration' s) as [a [s1|e1 s1]] eqn:Ei.
  - destruct (scan' fuel s1) as [b st] eqn:Es. intros [= <- ->].
    destruct (IH _ _ Es) as (i & acts0 & s_i & tail & Hlt & Hrun & Hit & ->).
    exists (S i), (a ++ acts0), s_i, tail. repeat split; [lia| |auto|by rewrite app_assoc].
    simpl. rewrite Ei, Hrun. reflexivity.
  - intros [= <- <- <-]. exists 0%nat, [], s, a. repeat split; [lia|auto].
Qed.

End ScannerFacts.

(** ** Streams of operations *)

Lemma sends_app (a b : list Action) : sends (a ++ b) = sends a ++ sends b.
Proof. unfold sends. apply flat_map_app. Qed.

Lemma sends_map_ASend (ops : list BlockOperation) : sends (map ASend ops) = ops.
Proof. induction ops as [|op ops IH]; simpl; congruence. Qed.

Lemma normal_ops_id (ops : list BlockOperation) :
  Forall (fun op => op_Error op = None) ops -> normal_ops ops = ops.
Proof.
  induction 1 as [|op ops Hop _ IH]; simpl; [reflexivity|].
  rewrite Hop. f_equal. exact IH.
Qed.

Lemma error_ops_none (ops : list BlockOperation) :
  Forall (fun op => op_Error op = None) ops -> error_ops ops = [].
Proof.
  induction 1 as [|op ops Hop _ IH]; simpl; [reflexivity|].
  rewrite Hop. exact IH.
Qed.

Lemma normal_ops_app (a b : list BlockOperation) :
  normal_ops (a ++ b) = normal_ops a ++ normal_ops b.
Proof. unfold normal_ops. apply List.filter_app. Qed.


(** The counter stays below 2^64 steps what it counts. *)
Lemma iter_incr64 (j : nat) : Nat.iter j incr64 0 = Z.of_nat j mod 2 ^ 64.
Proof.
  induction j as [|j IH]; [reflexivity|].
  rewrite Nat.iter_succ, IH. unfold incr64, uint64_max1.
  rewrite Zplus_mod_idemp_l. f_equal. lia.
Qed.


Section Runs.

Variable DefaultBlockSize : nat.
Variable rollingHash : list byte -> Z.
Context {R : Type} {reader_R : Reader R}.
Context {H : Type} {hash_H : Hash H}.
Variable ctx : Context.
Variable t : gmap Z (list BlockChecksum).
Variable shash : H.

Local Abbreviation iteration' := (iteration DefaultBlockSize rollingHash ctx t shash).
Local Abbreviation scan' := (scan DefaultBlockSize rollingHash ctx t shash).
Local Abbreviation make_op' := (make_op rollingHash t shash).



(** End of input ends the run with the close alone: no operation is
    sent for it. *)
Lemma scan_eof (i fuel : nat) (s s' : Scan) (acts : list Action)
      (block : list byte) (r' : R) :
  scan' i s = (acts, Running s') ->
  ctx (sc_iter s') = None ->
  Read (sc_reader s') (s_len (buffer DefaultBlockSize)) = (block, Some EOF, r') ->
  (i < fuel)%nat ->
  scan' fuel s =
  (acts ++ [AClose],
   Stopped Completed {| sc_index := sc_index s'; sc_reader := r'; sc_iter := sc_iter s' |}).
Proof.
  intros Hs Hc Hr Hlt. rewrite (scan_next _ _ _ _ _ i fuel s s' acts Hs Hlt).
  unfold iteration. rewrite Hc, Hr. reflexivity.
Qed.

(** The last iteration of a run that stopped sends at most one
    operation, which then carries an error, and closes the channel. *)
Lemma last_iteration (s s' : Scan) (tail : list Action) (e : Exit) :
  iteration' s = (tail, Stopped e s') ->
  (e = Completed /\ tail = [AClose]) \/
  (e <> Completed /\ exists eop, tail = [ASend eop; AClose] /\ op_Error eop <> None).
Proof.
  intros Hi. pose proof (iteration_inv DefaultBlockSize rollingHash ctx t shash s) as Hcase.
  rewrite Hi in Hcase. inversion Hcase; subst.
  - right. split; [discriminate|]. eexists. split; [reflexivity|]. discriminate.
  - left. auto.
  - right. split; [discriminate|]. eexists. split; [reflexivity|]. discriminate.
Qed.

(** The error-free operations of any run are what a run of as many
    iterations, still going, has sent. *)
Lemma scan_normal_prefix (fuel : nat) (s : Scan) (acts : list Action) (st : Status) :
  scan' fuel s = (acts, st) ->
  exists s_k,
    scan' (length (normal_ops (sends acts))) s =
    (map ASend (normal_ops (sends acts)), Running s_k).
Proof.
  intros Hs. destruct st as [s'|e s'].
  - destruct (scan_running _ _ _ _ _ _ _ _ _ Hs) as (ops & -> & Hlen & Hok & _).
    rewrite sends_map_ASend, (normal_ops_id _ Hok), Hlen. eauto.
  - destruct (scan_stopped_inv _ _ _ _ _ _ _ _ _ _ Hs)
      as (i & acts0 & s_i & tail & Hlt & Hrun & Hit & ->).
    destruct (scan_running _ _ _ _ _ _ _ _ _ Hrun) as (ops & -> & Hlen & Hok & _).
    rewrite sends_app, sends_map_ASend, normal_ops_app, (normal_ops_id _ Hok).
    destruct (last_iteration _ _ _ _ Hit) as [[_ ->]|[_ (eop & -> & Herr)]]; simpl.
    + rewrite app_nil_r, Hlen. eauto.
    + destruct (op_Error eop); [|contradiction]. rewrite app_nil_r, Hlen. eauto.
Qed.


End Runs.

(** * The operation stream of Sync *)

Section SyncProperties.

Variable DefaultBlockSize : nat.
Variable rollingHash : list byte -> Z.
Context {R : Type} {reader_R : Reader R}.
Context {H : Type} {hash_H : Hash H}.
Variable ctx : Context.
Variable r : R.
Variable shash : H.
Variable c : list BlockChecksum.

Local Abbreviation run := (sr_run (Sync DefaultBlockSize rollingHash ctx r shash c)).
Local Abbreviation make_op' := (make_op rollingHash (build_table c) shash).

Lemma run_running (i : nat) (acts : list Action) (s' : Scan) :
  run i = (acts, Running s') ->
  acts = map ASend (sends acts) /\
  length (sends acts) = i /\
  Forall (fun op => op_Error op = None) (sends acts) /\
  map op_Index (sends acts) = map (fun j => Nat.iter j incr64 0) (seq 0 i) /\
  sc_index s' = Z.of_nat i mod 2 ^ 64 /\
  sc_iter s' = i.
Proof.
  intros Hs. simpl in Hs.
  destruct (scan_running _ _ _ _ _ _ _ _ _ Hs) as (ops & -> & Hlen & Hok & Hidx & Hfin & Hit).
  rewrite sends_map_ASend. simpl in *. rewrite <- iter_incr64.
  repeat split; assumption.
Qed.





End SyncProperties.

(** ** Witnesses of C6, C7, C8 and C10 on concrete runs *)





(** * Where the scanner departs from its description *)

(** ** The bucket loop *)

Section Bucket.

Variable rollingHash : list byte -> Z.
Context {H : Type} {hash_H : Hash H}.
Variable shash : H.

Lemma scan_bucket_no_match (block : list byte) (bs : list BlockChecksum)
      (op : BlockOperation) :
  Forall (fun b => Sum shash block <> bc_Strong b) bs ->
  scan_bucket shash block bs op = op.
Proof.
  intros Hall. rewrite scan_bucket_last.
  replace (last_match shash block bs) with (@None BlockChecksum); [reflexivity|].
  symmetry. apply last_match_None.
  eapply Forall_impl; [exact Hall|]. intros b Hb. simpl in Hb.
  destruct (strong_match shash block b) eqn:E; [|reflexivity].
  apply strong_match_spec in E. contradiction.
Qed.

Lemma scan_bucket_app (block : list byte) (l1 l2 : list BlockChecksum)
      (op : BlockOperation) :
  scan_bucket shash block (l1 ++ l2) op =
  scan_bucket shash block l2 (scan_bucket shash block l1 op).
Proof. unfold scan_bucket. apply fold_left_app. Qed.

Lemma scan_bucket_cons (block : list byte) (b : BlockChecksum)
      (l : list BlockChecksum) (op : BlockOperation) :
  scan_bucket shash block (b :: l) op =
  scan_bucket shash block l
    (if strong_match shash block b then set_IndexB op (bc_Index b) else op).
Proof. reflexivity. Qed.

(** C1: what the scanner sends for a chunk whose weak checksum has a
    bucket and whose digest equals no candidate's Strong: the operation
    [{Index: index}] and nothing else in it.  Data stays nil and IndexB
    stays 0, so the chunk is not sent as a literal, where the
    specification asks for the chunk as payload. *)
Theorem C1_collision_without_match_sends_bare_operation
        (t : gmap Z (list BlockChecksum)) (index : Z) (block : list byte)
        (bs : list BlockChecksum) :
  t !! rollingHash block = Some bs ->
  Forall (fun b => Sum shash block <> bc_Strong b) bs ->
  make_op rollingHash t shash index block =
  {| op_Index := index; op_IndexB := 0; op_Data := None; op_Error := None |}.
Proof.
  intros Ht Hall. unfold make_op. rewrite Ht.
  apply scan_bucket_no_match. exact Hall.
Qed.

(** C9, as the code has it: of the candidates of the bucket that pass
    the comparison, the operation refers to the one that came in last.
    The bucket holds the checksums with the chunk's weak checksum in
    their order of arrival; [b] passes and none of those after it
    does. *)
Theorem C9_reuse_refers_to_last_match
        (c : list BlockChecksum) (index : Z) (block : list byte)
        (pre post : list BlockChecksum) (b : BlockChecksum) :
  bucket_of (rollingHash block) c = pre ++ b :: post ->
  Sum shash block = bc_Strong b ->
  Forall (fun b' => Sum shash block <> bc_Strong b') post ->
  make_op rollingHash (build_table c) shash index block =
  {| op_Index := index; op_IndexB := bc_Index b; op_Data := None; op_Error := None |}.
Proof.
  intros Hb Hm Hpost. unfold make_op.
  rewrite build_table_lookup, Hb.
  destruct (pre ++ b :: post) as [|x l] eqn:E; [destruct pre; discriminate|].
  rewrite <- E, scan_bucket_app, scan_bucket_cons.
  apply strong_match_spec in Hm. rewrite Hm.
  rewrite (scan_bucket_no_match _ _ _ Hpost), scan_bucket_last.
  destruct (last_match shash block pre); reflexivity.
Qed.

End Bucket.

(** The colliding candidate: a bucket for the weak checksum of the empty
    chunk, no candidate with its digest, and an operation that carries
    neither the chunk nor a reference. *)
Lemma C1_witness :
  let t := build_table colliding_checksums in
  let op := {| op_Index := 0; op_IndexB := 0; op_Data := None; op_Error := None |} in
  t !! weak_sample [] = Some colliding_checksums
  /\ make_op weak_sample t New32a 0 [] = op
  /\ (sr_run (Sync 4 weak_sample Background one_byte_file New32a colliding_checksums) 1%nat).1
     = [ASend op]
  /\ is_empty_op op
  /\ op_Data op <> Some [].
Proof.
  split; [reflexivity|]. split.
  - apply (C1_collision_without_match_sends_bare_operation
             weak_sample New32a (build_table colliding_checksums) 0 []
             colliding_checksums eq_refl).
    repeat constructor. discriminate.
  - split; [reflexivity|]. split; [repeat split|discriminate].
Defined.

(** The first match is not the one referred to: both candidates of the
    bucket have the strong hash of the (empty) chunk, block 5 came in
    first, and the operation refers to block 7. *)
Lemma C9_counterexample :
  let first := {| bc_Index := 5; bc_Weak := weak_sample [];
                  bc_Strong := fnv_of_nothing; bc_Error := None |} in
  let op := {| op_Index := 0; op_IndexB := 7; op_Data := None; op_Error := None |} in
  build_table twin_checksums !! weak_sample [] = Some twin_checksums
  /\ Forall (fun b => bc_Strong b = strong_hash New32a []) twin_checksums
  /\ first_match New32a [] twin_checksums = Some first
  /\ (sr_run (Sync 4 weak_sample Background one_byte_file New32a twin_checksums) 1%nat).1
     = [ASend op]
  /\ op_IndexB op <> bc_Index first.
Proof.
  intros first op. split; [reflexivity|]. split; [repeat constructor|].
  split; [reflexivity|]. split; [reflexivity|]. discriminate.
Qed.

Lemma C9_witness :
  make_op weak_sample (build_table twin_checksums) New32a 0 [] =
  {| op_Index := 0; op_IndexB := 7; op_Data := None; op_Error := None |}.
Proof.
  refine (C9_reuse_refers_to_last_match
            weak_sample New32a twin_checksums 0 []
            [ {| bc_Index := 5; bc_Weak := weak_sample [];
                 bc_Strong := fnv_of_nothing; bc_Error := None |} ]
            []
            {| bc_Index := 7; bc_Weak := weak_sample [];
               bc_Strong := fnv_of_nothing; bc_Error := None |}
            eq_refl eq_refl _).
  constructor.
Defined.

(** ** The digest that is compared *)

(** C3: the value compared with a candidate's Strong is [shash.Sum(block)],
    which for a hash.Hash is the chunk's own bytes followed by the digest
    of whatever was written to [shash] before; the chunk is never written
    to the hash, so this is not the strong hash of the chunk. *)
Theorem C3_compared_digest_is_chunk_then_old_digest
        {H : Type} {hash_H : Hash H} {laws : HashLaws H}
        (shash : H) (block : list byte) (b : BlockChecksum) :
  strong_match shash block b = true <-> bc_Strong b = block ++ Sum shash [].
Proof.
  rewrite strong_match_spec, Sum_append. split; congruence.
Qed.

(** With a hash that was used before: the candidate holding the strong
    hash of the chunk (block 4) is passed over, and the one holding the
    old digest (block 9) is taken. *)
Lemma C3_witness :
  let b4 := {| bc_Index := 4; bc_Weak := weak_sample [];
               bc_Strong := fnv_of_nothing; bc_Error := None |} in
  let b9 := {| bc_Index := 9; bc_Weak := weak_sample [];
               bc_Strong := Sum used_hash []; bc_Error := None |} in
  strong_match used_hash [] b9 = true
  /\ bc_Strong b9 <> strong_hash used_hash []
  /\ bc_Strong b4 = strong_hash used_hash []
  /\ strong_match used_hash [] b4 = false
  /\ map op_IndexB
         (sends (sr_run (Sync 4 weak_sample Background one_byte_file used_hash
                              [b4]) 1%nat).1) = [0]
  /\ map op_IndexB
         (sends (sr_run (Sync 4 weak_sample Background one_byte_file used_hash
                              stale_checksums) 1%nat).1) = [9].
Proof.
  intros b4 b9. split.
  - apply (proj2 (C3_compared_digest_is_chunk_then_old_digest used_hash [] b9)).
    reflexivity.
  - split; [discriminate|]. repeat split.
Defined.

(** ** The chunk buffer *)

Lemma BytesReader_Read_0 (r : BytesReader) :
  unread r <> [] -> Read r 0%nat = ([], None, r).
Proof.
  destruct r as [[|x s]]; [contradiction|]. reflexivity.
Qed.

Section EmptyBuffer.

Variable DefaultBlockSize : nat.
Variable rollingHash : list byte -> Z.
Context {R : Type} {reader_R : Reader R}.
Context {H : Type} {hash_H : Hash H}.
Variable ctx : Context.
Variable t : gmap Z (list BlockChecksum).
Variable shash : H.

(** With a reader that keeps to len(p), a chunk has no bytes. *)
Lemma scan_chunks_empty (fuel : nat) (s : Scan) (acts : list Action) (st : Status) :
  ReaderOk R ->
  scan DefaultBlockSize rollingHash ctx t shash fuel s = (acts, st) ->
  Forall (fun op => op_Error op = None ->
                    op = make_op rollingHash t shash (op_Index op) [])
         (sends acts).
Proof.
  intros Hok. revert s acts st. induction fuel as [|fuel IH]; intros s acts st; simpl.
  - intros [= <- <-]. constructor.
  - destruct (iteration_inv DefaultBlockSize rollingHash ctx t shash s)
      as [e Hc|block r' Hc Hr|block e r' Hc Hr Hne|block r' Hc Hr].
    + intros [= <- <-]. repeat constructor. discriminate.
    + intros [= <- <-]. constructor.
    + intros [= <- <-]. repeat constructor. discriminate.
    + destruct (scan _ _ _ _ _ fuel _) as [b st'] eqn:Es. intros [= <- <-].
      simpl. constructor; [|exact (IH _ _ _ Es)].
      intros _. rewrite make_op_Index.
      pose proof (Hok (sc_reader s) (s_len (buffer DefaultBlockSize))) as Hlen.
      rewrite Hr in Hlen. simpl in Hlen.
      destruct block; [reflexivity|simpl in Hlen; lia].
Qed.

(** A source that gives no byte and no error when asked for none keeps
    the loop going for ever, on chunks without bytes. *)
Lemma scan_stuck (r : R) (fuel : nat) (index : Z) (it : nat) :
  Read r 0%nat = ([], None, r) ->
  (forall j, ctx j = None) ->
  scan DefaultBlockSize rollingHash ctx t shash fuel
       {| sc_index := index; sc_reader := r; sc_iter := it |} =
  (map ASend (map (fun j => make_op rollingHash t shash (Nat.iter j incr64 index) [])
                  (seq 0 fuel)),
   Running {| sc_index := Nat.iter fuel incr64 index; sc_reader := r;
              sc_iter := (it + fuel)%nat |}).
Proof.
  intros Hr Hctx. revert index it.
  induction fuel as [|fuel IH]; intros index it.
  - simpl. rewrite Nat.add_0_r. reflexivity.
  - cbn [scan]. unfold iteration. cbn [sc_iter sc_reader sc_index s_len buffer].
    rewrite Hctx, Hr. cbn [is_EOF]. rewrite IH.
    cbn [app map seq]. rewrite <- seq_shift, !map_map.
    rewrite (Nat.iter_succ_r fuel). f_equal.
    + f_equal. apply map_ext. intros j. rewrite Nat.iter_succ_r. reflexivity.
    + do 2 f_equal. lia.
Qed.

End EmptyBuffer.

(** C4: the buffer handed to Read is [make([]byte, 0, DefaultBlockSize)],
    of length 0 whatever the block size, so a Read is asked for no bytes:
    with any reader that keeps to io.Reader's contract, every operation
    made from a chunk is made from the empty chunk, where the
    specification has each iteration read up to a block of the source. *)
Theorem C4_every_chunk_is_empty
        (DefaultBlockSize : nat) (rollingHash : list byte -> Z)
        {R : Type} {reader_R : Reader R} {H : Type} {hash_H : Hash H}
        (ctx : Context) (r : R) (shash : H) (c : list BlockChecksum) (fuel : nat) :
  ReaderOk R ->
  s_len (buffer DefaultBlockSize) = 0%nat
  /\ Forall (fun op => op_Error op = None ->
                       op = make_op rollingHash (build_table c) shash (op_Index op) [])
            (sends (sr_run (Sync DefaultBlockSize rollingHash ctx r shash c) fuel).1).
Proof.
  intros Hok. split; [reflexivity|].
  destruct (sr_run _ fuel) as [acts st] eqn:E. simpl in E.
  exact (scan_chunks_empty _ _ _ _ _ _ _ _ _ Hok E).
Qed.

(** A one-byte file with a block size of 4: after three iterations the
    byte is still unread, end of input has not been seen, and three
    operations with an empty payload went out. *)
Lemma C4_witness :
  let run := sr_run (Sync 4 weak_sample Background one_byte_file New32a []) in
  (s_len (buffer 4) = 0%nat
   /\ Forall (fun op => op_Error op = None ->
                        op = make_op weak_sample (build_table []) New32a (op_Index op) [])
             (sends (run 3%nat).1))
  /\ map op_Data (sends (run 3%nat).1) = [Some []; Some []; Some []]
  /\ (run 3%nat).2 = Running {| sc_index := 3; sc_reader := one_byte_file; sc_iter := 3 |}.
Proof.
  split.
  - exact (C4_every_chunk_is_empty 4 weak_sample Background one_byte_file New32a [] 3
                                   BytesReader_ok).
  - split; reflexivity.
Defined.

(** ** The round trip *)

Lemma reconstruct_empty_payloads (remote : Z -> list byte) (ops : list BlockOperation) :
  Forall (fun op => op_Data op = Some []) ops -> reconstruct remote ops = [].
Proof.
  induction 1 as [|op ops Hop _ IH]; [reflexivity|].
  unfold reconstruct in *. simpl. unfold apply_op at 1. rewrite Hop. exact IH.
Qed.

(** C2: a local file of one byte, no remote checksums.  However long the
    scanner runs, it has not stopped, the byte is still unread, and the
    operations sent so far rebuild the empty file, not the local one. *)
Theorem C2_one_byte_file_is_not_reproduced
        (DefaultBlockSize : nat) (rollingHash : list byte -> Z)
        {H : Type} {hash_H : Hash H} (shash : H)
        (remote : Z -> list byte) (fuel : nat) :
  let res := sr_run (Sync DefaultBlockSize rollingHash Background one_byte_file shash []) fuel in
  reconstruct remote (sends res.1) = []
  /\ reconstruct remote (sends res.1) <> unread one_byte_file
  /\ length (sends res.1) = fuel
  /\ res.2 = Running {| sc_index := Z.of_nat fuel mod 2 ^ 64;
                        sc_reader := one_byte_file; sc_iter := fuel |}.
Proof.
  intros res. subst res. cbn [Sync sr_run].
  rewrite (scan_stuck DefaultBlockSize rollingHash Background _ shash one_byte_file fuel 0 0
                      (BytesReader_Read_0 one_byte_file ltac:(discriminate))
                      (fun _ => eq_refl)).
  cbn [fst snd]. rewrite sends_map_ASend, iter_incr64.
  assert (Hrec : reconstruct remote
                   (map (fun j => make_op rollingHash (build_table []) shash
                                          (Nat.iter j incr64 0) []) (seq 0 fuel)) = []).
  { apply reconstruct_empty_payloads. apply Forall_map, Forall_forall. intros j _. reflexivity. }
  rewrite Hrec, length_map, length_seq. repeat split. discriminate.
Qed.

(** ** The returned channel *)

(** C5: the channel is made and returned as [chan<- BlockOperation], a
    type that has no receive; it has no buffer either.  So nothing the
    goroutine sends can be received by the caller: its first send never
    completes, and the caller gets nothing, whatever the inputs. *)
Theorem C5_returned_channel_cannot_be_received_from
        (DefaultBlockSize : nat) (rollingHash : list byte -> Z)
        {R : Type} {reader_R : Reader R} {H : Type} {hash_H : Hash H}
        (ctx : Context) (r : R) (shash : H) (c : list BlockChecksum) (fuel : nat) :
  let res := Sync DefaultBlockSize rollingHash ctx r shash c in
  sr_chan res = make_chan SendOnly 0
  /\ can_recv (sr_chan res) = false
  /\ sends (completed (sr_chan res) (ch_cap (sr_chan res)) (sr_run res fuel).1) = []
  /\ received (sr_chan res) (sr_run res fuel).1 = [].
Proof.
  intros res. split; [reflexivity|]. split; [reflexivity|]. split; [|reflexivity].
  cbn [res Sync sr_chan ch_cap]. destruct (sr_run _ fuel).1 as [|[op|] rest]; reflexivity.
Qed.

(** One operation is sent for the one-byte file, and none can be
    received. *)
Lemma C5_failing_run :
  let res := Sync 4 weak_sample Background one_byte_file New32a [] in
  sends (sr_run res 1%nat).1 =
    [{| op_Index := 0; op_IndexB := 0; op_Data := Some []; op_Error := None |}]
  /\ completed (sr_chan res) (ch_cap (sr_chan res)) (sr_run res 1%nat).1 = []
  /\ received (sr_chan res) (sr_run res 1%nat).1 = [].
Proof. repeat split. Qed.

(** * Further properties of the table and of the stream *)

(** ** The table builder *)

Lemma bucket_of_nil_iff (w : Z) (c : list BlockChecksum) :
  bucket_of w c = [] <-> Forall (fun b => bc_Weak b <> w) c.
Proof.
  unfold bucket_of. induction c as [|b c IH]; simpl.
  - split; [constructor|reflexivity].
  - destruct (Z.eqb_spec (bc_Weak b) w) as [Hw|Hw].
    + split; [discriminate|]. intros Hall. inversion Hall; contradiction.
    + rewrite IH. split; [by constructor|]. intros Hall. inversion Hall; assumption.
Qed.

Lemma build_table_default (c : list BlockChecksum) (w : Z) :
  default [] (build_table c !! w) = bucket_of w c.
Proof.
  rewrite build_table_lookup. destruct (bucket_of w c); reflexivity.
Qed.

Lemma build_table_None_iff (c : list BlockChecksum) (w : Z) :
  build_table c !! w = None <-> Forall (fun b => bc_Weak b <> w) c.
Proof.
  rewrite build_table_lookup, <- bucket_of_nil_iff.
  destruct (bucket_of w c); split; congruence.
Qed.

(** X1: the table has a bucket for [w] exactly when some checksum with
    weak checksum [w] came in, and the bucket is then those checksums, and
    only those, in the order they came in. *)
Theorem X1_bucket_is_the_checksums_in_arrival_order (c : list BlockChecksum) (w : Z) :
  (build_table c !! w = None <-> Forall (fun b => bc_Weak b <> w) c)
  /\ (forall bs, build_table c !! w = Some bs ->
                 bs <> [] /\ bs = List.filter (fun b => Z.eqb (bc_Weak b) w) c).
Proof.
  split; [apply build_table_None_iff|].
  rewrite build_table_lookup.
  - intros bs. fold (bucket_of w c). destruct (bucket_of w c); [discriminate|].
    intros [= <-]. split; [discriminate|reflexivity].
Qed.

(** X2: no checksum is dropped: whatever came in, with an Error or
    without, sits in the bucket of its weak checksum. *)
Theorem X2_every_checksum_is_indexed (c : list BlockChecksum) (sum : BlockChecksum) :
  In sum c ->
  exists bs, build_table c !! bc_Weak sum = Some bs /\ In sum bs.
Proof.
  intros Hin.
  assert (Hb : In sum (bucket_of (bc_Weak sum) c)).
  { unfold bucket_of. apply filter_In. split; [exact Hin|apply Z.eqb_refl]. }
  rewrite build_table_lookup. destruct (bucket_of (bc_Weak sum) c) as [|b bs]; [destruct Hb|].
  eauto.
Qed.

Lemma X2_witness :
  exists bs, build_table (colliding_checksums ++ [broken_checksum])
             !! bc_Weak broken_checksum = Some bs /\ In broken_checksum bs.
Proof.
  apply (X2_every_checksum_is_indexed (colliding_checksums ++ [broken_checksum])
                                      broken_checksum).
  simpl. right. left. reflexivity.
Defined.

(** X3: checksums that come in two batches give, for every weak
    checksum, the bucket of the first batch followed by that of the
    second. *)
Theorem X3_table_of_two_batches (c1 c2 : list BlockChecksum) (w : Z) :
  default [] (build_table (c1 ++ c2) !! w) =
  default [] (build_table c1 !! w) ++ default [] (build_table c2 !! w).
Proof.
  rewrite !build_table_default. unfold bucket_of. apply List.filter_app.
Qed.

(** ** The operation made for a chunk *)

Section ChunkOperation.

Variable rollingHash : list byte -> Z.
Context {H : Type} {hash_H : Hash H}.
Variable shash : H.

Lemma scan_bucket_Data (block : list byte) (bs : list BlockChecksum) (op : BlockOperation) :
  op_Data (scan_bucket shash block bs op) = op_Data op.
Proof. rewrite scan_bucket_last. destruct (last_match _ _ _); reflexivity. Qed.

(** X4: the chunk is sent as payload exactly when no checksum came in
    with its weak checksum; the operation is then [{Index, Data: block}].
    When one did, the operation has no payload, whatever the strong
    hashes are. *)
Theorem X4_payload_iff_weak_checksum_unknown
        (c : list BlockChecksum) (index : Z) (block : list byte) :
  let op := make_op rollingHash (build_table c) shash index block in
  (Forall (fun b => bc_Weak b <> rollingHash block) c ->
   op = {| op_Index := index; op_IndexB := 0; op_Data := Some block; op_Error := None |})
  /\ (Exists (fun b => bc_Weak b = rollingHash block) c -> op_Data op = None)
  /\ (op_Data op = Some block <-> Forall (fun b => bc_Weak b <> rollingHash block) c).
Proof.
  intros op. subst op. unfold make_op.
  destruct (build_table c !! rollingHash block) as [bs|] eqn:Et.
  - assert (Hno : ~ Forall (fun b => bc_Weak b <> rollingHash block) c).
    { intros Hall. apply build_table_None_iff in Hall. congruence. }
    rewrite scan_bucket_Data. simpl. split; [tauto|]. split; [reflexivity|].
    split; [discriminate|tauto].
  - assert (Hall : Forall (fun b => bc_Weak b <> rollingHash block) c).
    { apply build_table_None_iff. exact Et. }
    split; [reflexivity|]. split; [|tauto].
    intros Hex. apply List.Exists_exists in Hex. destruct Hex as (b & Hin & Hw).
    rewrite List.Forall_forall in Hall. destruct (Hall b Hin Hw).
Qed.

End ChunkOperation.

Section BlockReference.

Variable rollingHash : list byte -> Z.
Context {H : Type} {hash_H : Hash H}.
Variable shash : H.

(** X5: a block reference other than 0 is never made up: it is the Index
    of a checksum that came in, has the chunk's weak checksum, and whose
    Strong equals [shash.Sum(block)]. *)
Theorem X5_block_reference_comes_from_a_match
        (c : list BlockChecksum) (index : Z) (block : list byte) :
  op_IndexB (make_op rollingHash (build_table c) shash index block) <> 0 ->
  exists b,
    In b c /\
    bc_Weak b = rollingHash block /\
    Sum shash block = bc_Strong b /\
    bc_Index b = op_IndexB (make_op rollingHash (build_table c) shash index block).
Proof.
  unfold make_op. rewrite build_table_lookup.
  destruct (bucket_of (rollingHash block) c) as [|x l] eqn:Eb; [simpl; congruence|].
  rewrite <- Eb, scan_bucket_last.
  destruct (last_match shash block (bucket_of (rollingHash block) c)) as [b|] eqn:El;
    [|simpl; congruence].
  intros _. exists b. unfold last_match in El. apply find_some in El.
  destruct El as [Hin Hm]. apply in_rev in Hin. unfold bucket_of in Hin.
  apply filter_In in Hin. destruct Hin as [Hin Hw].
  apply Z.eqb_eq in Hw. apply strong_match_spec in Hm. auto.
Qed.

(** X13: a match with remote block 0 and no match at all give the same
    operation: with a bucket whose last matching candidate has Index 0,
    or with a bucket none of whose candidates matches, what is sent is
    [{Index: index}] either way. *)
Theorem X13_reuse_of_block_zero_equals_no_match
        (t1 t2 : gmap Z (list BlockChecksum)) (index : Z) (block : list byte)
        (pre post bs2 : list BlockChecksum) (b : BlockChecksum) :
  t1 !! rollingHash block = Some (pre ++ b :: post) ->
  Sum shash block = bc_Strong b ->
  Forall (fun b' => Sum shash block <> bc_Strong b') post ->
  bc_Index b = 0 ->
  t2 !! rollingHash block = Some bs2 ->
  Forall (fun b' => Sum shash block <> bc_Strong b') bs2 ->
  make_op rollingHash t1 shash index block = make_op rollingHash t2 shash index block.
Proof.
  intros Ht1 Hm Hpost Hz Ht2 Hno. unfold make_op. rewrite Ht1, Ht2.
  rewrite (scan_bucket_no_match _ _ _ _ Hno).
  rewrite scan_bucket_app, scan_bucket_cons.
  apply strong_match_spec in Hm. rewrite Hm, Hz.
  rewrite (scan_bucket_no_match _ _ _ _ Hpost), scan_bucket_last.
  destruct (last_match shash block pre); reflexivity.
Qed.

Lemma bucket_of_without_Error (w : Z) (c : list BlockChecksum) :
  bucket_of w (map without_Error c) = map without_Error (bucket_of w c).
Proof.
  unfold bucket_of. induction c as [|b c IH]; simpl; [reflexivity|].
  destruct (Z.eqb (bc_Weak b) w); simpl; congruence.
Qed.

Lemma scan_bucket_without_Error (block : list byte) (bs : list BlockChecksum)
      (op : BlockOperation) :
  scan_bucket shash block (map without_Error bs) op = scan_bucket shash block bs op.
Proof.
  revert op. induction bs as [|b bs IH]; intros op; [reflexivity|].
  simpl map. rewrite !scan_bucket_cons. apply IH.
Qed.

Lemma make_op_without_Error (c : list BlockChecksum) (index : Z) (block : list byte) :
  make_op rollingHash (build_table (map without_Error c)) shash index block =
  make_op rollingHash (build_table c) shash index block.
Proof.
  unfold make_op. rewrite !build_table_lookup, bucket_of_without_Error.
  destruct (bucket_of (rollingHash block) c) as [|x l]; [reflexivity|].
  apply (scan_bucket_without_Error block (x :: l)).
Qed.

End BlockReference.

Lemma X13_witness :
  make_op weak_sample (build_table [block_zero_checksum]) New32a 0 [] =
  make_op weak_sample (build_table colliding_checksums) New32a 0 [].
Proof.
  refine (X13_reuse_of_block_zero_equals_no_match
            weak_sample New32a
            (build_table [block_zero_checksum]) (build_table colliding_checksums)
            0 [] [] [] colliding_checksums block_zero_checksum
            eq_refl eq_refl _ eq_refl eq_refl _).
  - constructor.
  - repeat constructor. discriminate.
Defined.

Lemma X5_witness :
  exists b,
    In b twin_checksums /\
    bc_Weak b = weak_sample [] /\
    Sum New32a [] = bc_Strong b /\
    bc_Index b = op_IndexB (make_op weak_sample (build_table twin_checksums) New32a 0 []).
Proof.
  apply (X5_block_reference_comes_from_a_match weak_sample New32a twin_checksums 0 []).
  vm_compute. discriminate.
Defined.

(** ** The stream as a whole *)

Section StreamFacts.

Variable DefaultBlockSize : nat.
Variable rollingHash : list byte -> Z.
Context {R : Type} {reader_R : Reader R}.
Context {H : Type} {hash_H : Hash H}.
Variable ctx : Context.
Variable shash : H.

(** What holds of every error operation and of every chunk's operation
    holds of everything a run sends. *)
Lemma scan_sends_inv (P : BlockOperation -> Prop) (t : gmap Z (list BlockChecksum)) :
  (forall e, P (error_op e)) ->
  (forall index block, P (make_op rollingHash t shash index block)) ->
  forall fuel s acts st,
    scan DefaultBlockSize rollingHash ctx t shash fuel s = (acts, st) ->
    Forall P (sends acts).
Proof.
  intros He Hm. induction fuel as [|fuel IH]; intros s acts st; simpl.
  - intros [= <- <-]. constructor.
  - destruct (iteration_inv DefaultBlockSize rollingHash ctx t shash s)
      as [e Hc|block r' Hc Hr|block e r' Hc Hr Hne|block r' Hc Hr].
    + intros [= <- <-]. repeat constructor. apply He.
    + intros [= <- <-]. constructor.
    + intros [= <- <-]. repeat constructor. apply He.
    + destruct (scan _ _ _ _ _ fuel _) as [b st'] eqn:Es. intros [= <- <-].
      simpl. constructor; [apply Hm|exact (IH _ _ _ Es)].
Qed.

(** Tables that give the same operation for every chunk give the same
    run. *)
Lemma scan_ext (t1 t2 : gmap Z (list BlockChecksum)) :
  (forall index block,
      make_op rollingHash t1 shash index block = make_op rollingHash t2 shash index block) ->
  forall fuel s,
    scan DefaultBlockSize rollingHash ctx t1 shash fuel s =
    scan DefaultBlockSize rollingHash ctx t2 shash fuel s.
Proof.
  intros Hop. induction fuel as [|fuel IH]; intros s; [reflexivity|].
  simpl. unfold iteration.
  destruct (ctx (sc_iter s)); [reflexivity|].
  destruct (Read (sc_reader s) _) as [[block err] r'].
  destruct (is_EOF err); [reflexivity|].
  destruct err; [reflexivity|]. rewrite Hop, IH. reflexivity.
Qed.


Variable r : R.
Variable c : list BlockChecksum.

Local Abbreviation run := (sr_run (Sync DefaultBlockSize rollingHash ctx r shash c)).

(** X6: no operation of the stream has both a payload and a block
    reference other than 0. *)
Theorem X6_never_payload_and_reference (fuel : nat) :
  Forall (fun op => op_Data op = None \/ op_IndexB op = 0) (sends (run fuel).1).
Proof.
  destruct (run fuel) as [acts st] eqn:E. simpl in E. simpl fst.
  refine (scan_sends_inv _ _ _ _ _ _ _ _ E).
  - intros e. left. reflexivity.
  - intros index block. unfold make_op.
    destruct (build_table c !! rollingHash block); [|right; reflexivity].
    left. rewrite scan_bucket_last. destruct (last_match _ _ _); reflexivity.
Qed.

(** X7: an operation that carries an error carries nothing else: its
    Index and IndexB are 0 and its Data is nil, however many chunks went
    before. *)
Theorem X7_error_operation_carries_only_the_error (fuel : nat) :
  Forall (fun op => op_Error op <> None ->
                    op_Index op = 0 /\ op_IndexB op = 0 /\ op_Data op = None)
         (sends (run fuel).1).
Proof.
  destruct (run fuel) as [acts st] eqn:E. simpl in E. simpl fst.
  refine (scan_sends_inv _ _ _ _ _ _ _ _ E).
  - intros e _. repeat split.
  - intros index block Herr. rewrite make_op_Error in Herr. contradiction.
Qed.


(** X9: end of input after [i] chunks: the stream is the [i] operations
    and then the close, with no error operation; whatever the Read gave
    along with io.EOF is not sent. *)
Theorem X9_end_of_input_closes_without_error
        (i : nat) (acts : list Action) (s' : Scan) (block : list byte) (r' : R) :
  run i = (acts, Running s') ->
  ctx i = None ->
  Read (sc_reader s') (s_len (buffer DefaultBlockSize)) = (block, Some EOF, r') ->
  forall fuel, (i < fuel)%nat ->
    run fuel = (acts ++ [AClose],
                Stopped Completed
                  {| sc_index := sc_index s'; sc_reader := r'; sc_iter := i |})
    /\ sends (run fuel).1 = sends acts
    /\ error_ops (sends (run fuel).1) = []
    /\ length (sends acts) = i.
Proof.
  intros Hs Hc Hr fuel Hlt.
  destruct (run_running _ _ _ _ _ _ _ _ _ Hs) as (_ & Hlen & Hok & _ & _ & Hit).
  assert (Hrun : run fuel =
                 (acts ++ [AClose],
                  Stopped Completed
                    {| sc_index := sc_index s'; sc_reader := r'; sc_iter := i |})).
  { clear Hlen. simpl in *. subst i. eapply scan_eof; eauto. }
  rewrite Hrun. simpl fst. rewrite sends_app. simpl. rewrite app_nil_r.
  rewrite (error_ops_none _ Hok). auto.
Qed.

(** X10: as long as the goroutine has not returned, it has sent exactly
    one operation per iteration, none of them with an error, and has not
    closed the channel. *)
Theorem X10_one_operation_per_iteration_until_it_stops
        (fuel : nat) (acts : list Action) (s' : Scan) :
  run fuel = (acts, Running s') ->
  length (sends acts) = fuel
  /\ length acts = fuel
  /\ ~ In AClose acts
  /\ error_ops (sends acts) = []
  /\ sc_iter s' = fuel.
Proof.
  intros Hs.
  destruct (run_running _ _ _ _ _ _ _ _ _ Hs) as (Hacts & Hlen & Hok & _ & _ & Hit).
  split; [exact Hlen|]. split; [rewrite Hacts, length_map; exact Hlen|].
  split; [|split; [apply error_ops_none, Hok|exact Hit]].
  rewrite Hacts. intros Hin. apply in_map_iff in Hin.
  destruct Hin as (op & Hop & _). discriminate.
Qed.

(** X11: the ordinal is a uint64 and wraps: in any run, the error-free
    operation number [j] has Index [j mod 2^64]. *)
Theorem X11_ordinal_is_position_modulo_2_64 (fuel : nat) :
  let ops := normal_ops (sends (run fuel).1) in
  map op_Index ops = map (fun j => Z.of_nat j mod 2 ^ 64) (seq 0 (length ops)).
Proof.
  intros ops. subst ops. destruct (run fuel) as [acts st] eqn:E. simpl fst.
  destruct (scan_normal_prefix _ _ _ _ _ _ _ _ _ E) as [s_k Hrun].
  destruct (run_running  _ _ _ _ _ _ _ _ _ Hrun) as (_ & _ & _ & Hidx & _).
  rewrite sends_map_ASend in Hidx. rewrite Hidx.
  apply map_ext. intros j. apply iter_incr64.
Qed.

(** X12: a source that answers a Read for no bytes with no bytes and no
    error, and is left as it was, keeps the goroutine going for ever while
    the context is live: after any number of iterations it has not
    returned, and has sent that many operations. *)
Theorem X12_idle_source_never_ends :
  Read r (s_len (buffer DefaultBlockSize)) = ([], None, r) ->
  (forall j, ctx j = None) ->
  forall fuel,
    exists acts,
      run fuel = (acts, Running {| sc_index := Z.of_nat fuel mod 2 ^ 64;
                                   sc_reader := r; sc_iter := fuel |})
      /\ length (sends acts) = fuel.
Proof.
  intros Hr Hctx fuel. simpl.
  rewrite (scan_stuck DefaultBlockSize rollingHash ctx (build_table c) shash r fuel 0 0
                      Hr Hctx).
  rewrite iter_incr64. eexists. split; [reflexivity|].
  rewrite sends_map_ASend, length_map, length_seq. reflexivity.
Qed.

(** X14: the Error of a checksum changes nothing: the run with the
    checksums as they came in is the run with their Errors forgotten. *)
Theorem X14_checksum_errors_do_not_change_the_stream (fuel : nat) :
  run fuel = sr_run (Sync DefaultBlockSize rollingHash ctx r shash
                          (map without_Error c)) fuel.
Proof.
  simpl. apply scan_ext. intros index block. symmetry.
  apply make_op_without_Error.
Qed.

End StreamFacts.

(** ** The further properties on concrete runs *)


(** One chunk, then end of input. *)
Lemma X9_witness :
  let run := sr_run (Sync 4 weak_sample Background (Script [([], None)]) New32a []) in
  let op := {| op_Index := 0; op_IndexB := 0; op_Data := Some []; op_Error := None |} in
  run 4%nat = ([ASend op] ++ [AClose],
               Stopped Completed {| sc_index := 1; sc_reader := Script []; sc_iter := 1 |})
  /\ sends (run 4%nat).1 = [op]
  /\ error_ops (sends (run 4%nat).1) = []
  /\ length [op] = 1%nat.
Proof.
  exact (X9_end_of_input_closes_without_error
           4 weak_sample Background New32a (Script [([], None)]) []
           1 _ _ [] (Script []) eq_refl eq_refl eq_refl 4%nat ltac:(lia)).
Defined.

Lemma X10_witness :
  let run := sr_run (Sync 4 weak_sample Background one_byte_file New32a []) in
  length (sends (run 3%nat).1) = 3%nat
  /\ length (run 3%nat).1 = 3%nat
  /\ ~ In AClose (run 3%nat).1
  /\ error_ops (sends (run 3%nat).1) = []
  /\ 3%nat = 3%nat.
Proof.
  exact (X10_one_operation_per_iteration_until_it_stops
           4 weak_sample Background New32a one_byte_file [] 3 _ _ eq_refl).
Defined.

(** The one-byte file again, now with checksums in the table: after a
    thousand iterations the goroutine is still at it. *)
Lemma X12_witness :
  exists acts,
    sr_run (Sync 4 weak_sample Background one_byte_file New32a twin_checksums) 1000%nat
    = (acts, Running {| sc_index := 1000; sc_reader := one_byte_file;
                        sc_iter := 1000 |})
    /\ length (sends acts) = 1000%nat.
Proof.
  exact (X12_idle_source_never_ends
           4 weak_sample Background New32a one_byte_file twin_checksums
           eq_refl (fun _ => eq_refl) 1000%nat).
Defined.
